(** * CulinaryAI: the browser history store and the video lookup

    A shallow embedding of [services/storage.ts] (the bounded history kept in
    [localStorage]), of [findRecipeVideos] from [services/gemini.ts] and of the
    rating handler of [App.tsx], together with the part of the JavaScript
    runtime they run on: JSON values, [JSON.parse] / [JSON.stringify],
    exceptions with [try]/[catch], and a [localStorage] that can refuse access
    or run out of room. *)

From Stdlib Require Import ZArith List Ascii String Decimal DecimalZ DecimalPos DecimalFacts Lia.
From stdpp Require Import base option list strings gmap.

Local Open Scope string_scope.
Local Open Scope char_scope.

(** ** JSON values and the JSON codec *)

Module JSON.

Unset Elimination Schemes.

(** What [JSON.parse] can return. Numbers are kept to the integers (time
    stamps, counts, star ratings); a string is a sequence of code units below
    256; an object keeps its members in insertion order, as a JavaScript
    object does for its string keys (keys that read as array indices, which
    JavaScript lists first, get no special place here). *)
Inductive value : Type :=
  | Null
  | Bool (b : bool)
  | Number (n : Z)
  | Str (s : string)
  | Array (elements : list value)
  | Object (members : list (string * value)).

Set Elimination Schemes.

Section Induction.
Variable P : value -> Prop.
Hypothesis HNull : P Null.
Hypothesis HBool : forall b, P (Bool b).
Hypothesis HNumber : forall n, P (Number n).
Hypothesis HStr : forall s, P (Str s).
Hypothesis HArray : forall l, Forall P l -> P (Array l).
Hypothesis HObject : forall m, Forall (fun kv => P (snd kv)) m -> P (Object m).

Fixpoint value_ind (v : value) : P v :=
  match v with
  | Null => HNull
  | Bool b => HBool b
  | Number n => HNumber n
  | Str s => HStr s
  | Array l =>
      HArray l
        ((fix all (l : list value) : Forall P l :=
            match l with
            | [] => @List.Forall_nil _ P
            | x :: xs => @List.Forall_cons _ P x xs (value_ind x) (all xs)
            end) l)
  | Object m =>
      HObject m
        ((fix all (m : list (string * value)) : Forall (fun kv => P (snd kv)) m :=
            match m with
            | [] => @List.Forall_nil _ (fun kv => P (snd kv))
            | kv :: kvs => @List.Forall_cons _ (fun kv => P (snd kv)) kv kvs (value_ind (snd kv)) (all kvs)
            end) m)
  end.
End Induction.

(** *** Own properties of an object *)

(** [o[k]] on the member list. *)
Fixpoint get (k : string) (m : list (string * value)) : option value :=
  match m with
  | [] => None
  | (k', v) :: m' => if String.eqb k' k then Some v else get k m'
  end.

(** [o[k] = v]: an existing key keeps its place, a new key goes last. *)
Fixpoint set (k : string) (v : value) (m : list (string * value)) : list (string * value) :=
  match m with
  | [] => [(k, v)]
  | (k', v') :: m' => if String.eqb k' k then (k', v) :: m' else (k', v') :: set k v m'
  end.

Definition keys (m : list (string * value)) : list string := map fst m.

(** Builds an object from members in textual order; a repeated key keeps its
    first place and its last value. *)
Definition of_members (m : list (string * value)) : list (string * value) :=
  fold_left (fun acc kv => set (fst kv) (snd kv) acc) m [].

Fixpoint nodup_keys (m : list (string * value)) : bool :=
  match m with
  | [] => true
  | (k, _) :: m' => negb (existsb (String.eqb k) (keys m')) && nodup_keys m'
  end.

(** A value as the runtime can hold it: no object has a key twice. *)
Fixpoint wf (v : value) : bool :=
  match v with
  | Array l => forallb wf l
  | Object m => nodup_keys m && forallb (fun kv => wf (snd kv)) m
  | _ => true
  end.

(** *** [JSON.stringify] *)

Definition dquote : ascii := "034".
Definition backslash : ascii := "092".

Definition hex_digit (n : nat) : ascii :=
  match n with
  | 0 => "0" | 1 => "1" | 2 => "2" | 3 => "3" | 4 => "4" | 5 => "5" | 6 => "6" | 7 => "7"
  | 8 => "8" | 9 => "9" | 10 => "a" | 11 => "b" | 12 => "c" | 13 => "d" | 14 => "e" | _ => "f"
  end%nat.

(** One code unit inside a string literal, the way [JSON.stringify] quotes. *)
Definition write_char (c : ascii) (k : string) : string :=
  if c =? dquote then String backslash (String dquote k)
  else if c =? backslash then String backslash (String backslash k)
  else if c =? "008" then String backslash (String "b" k)
  else if c =? "009" then String backslash (String "t" k)
  else if c =? "010" then String backslash (String "n" k)
  else if c =? "012" then String backslash (String "f" k)
  else if c =? "013" then String backslash (String "r" k)
  else if (nat_of_ascii c <? 32)%nat then
    String backslash (String "u" (String "0" (String "0"
      (String (hex_digit (nat_of_ascii c / 16)) (String (hex_digit (nat_of_ascii c mod 16)) k)))))
  else String c k.

Fixpoint write_chars (s : string) (k : string) : string :=
  match s with
  | EmptyString => k
  | String c s' => write_char c (write_chars s' k)
  end.

Definition write_string (s : string) (k : string) : string :=
  String dquote (write_chars s (String dquote k)).

Fixpoint write_uint (u : uint) (k : string) : string :=
  match u with
  | Nil => k
  | D0 u => String "0" (write_uint u k)
  | D1 u => String "1" (write_uint u k)
  | D2 u => String "2" (write_uint u k)
  | D3 u => String "3" (write_uint u k)
  | D4 u => String "4" (write_uint u k)
  | D5 u => String "5" (write_uint u k)
  | D6 u => String "6" (write_uint u k)
  | D7 u => String "7" (write_uint u k)
  | D8 u => String "8" (write_uint u k)
  | D9 u => String "9" (write_uint u k)
  end.

Definition write_number (n : Z) (k : string) : string :=
  match Z.to_int n with
  | Pos u => write_uint u k
  | Neg u => String "-" (write_uint u k)
  end.

(** [write v k] is the text of [v] followed by [k]. *)
Fixpoint write (v : value) (k : string) : string :=
  match v with
  | Null => String "n" (String "u" (String "l" (String "l" k)))
  | Bool true => String "t" (String "r" (String "u" (String "e" k)))
  | Bool false => String "f" (String "a" (String "l" (String "s" (String "e" k))))
  | Number n => write_number n k
  | Str s => write_string s k
  | Array l =>
      String "["
        match l with
        | [] => String "]" k
        | x :: xs =>
            write x
              ((fix rest (xs : list value) : string :=
                  match xs with
                  | [] => String "]" k
                  | y :: ys => String "," (write y (rest ys))
                  end) xs)
        end
  | Object m =>
      String "{"
        match m with
        | [] => String "}" k
        | (key, x) :: kvs =>
            write_string key (String ":" (write x
              ((fix rest (kvs : list (string * value)) : string :=
                  match kvs with
                  | [] => String "}" k
                  | (key', y) :: kvs' =>
                      String "," (write_string key' (String ":" (write y (rest kvs'))))
                  end) kvs)))
        end
  end.

Definition stringify (v : value) : string := write v EmptyString.

(** *** [JSON.parse] *)

Definition is_ws (c : ascii) : bool :=
  (c =? " ") || (c =? "009") || (c =? "010") || (c =? "013").

Fixpoint skip_ws (s : string) : string :=
  match s with
  | String c r => if is_ws c then skip_ws r else s
  | EmptyString => s
  end.

Definition digit (c : ascii) : option (uint -> uint) :=
  if c =? "0" then Some D0 else if c =? "1" then Some D1
  else if c =? "2" then Some D2 else if c =? "3" then Some D3
  else if c =? "4" then Some D4 else if c =? "5" then Some D5
  else if c =? "6" then Some D6 else if c =? "7" then Some D7
  else if c =? "8" then Some D8 else if c =? "9" then Some D9
  else None.

(** The longest run of digits at the head of [s]. *)
Fixpoint parse_uint (s : string) : uint * string :=
  match s with
  | String c r =>
      match digit c with
      | Some d => let '(u, r') := parse_uint r in (d u, r')
      | None => (Nil, s)
      end
  | EmptyString => (Nil, s)
  end.

(** JSON's integer part: one digit at least, and no leading zero. *)
Definition int_syntax (u : uint) : bool :=
  match u with
  | Nil => false
  | D0 Nil => true
  | D0 _ => false
  | _ => true
  end.

Definition parse_number (negative : bool) (s : string) : option (value * string) :=
  let '(u, r) := parse_uint s in
  if int_syntax u
  then Some (Number (Z.of_int (if negative then Neg u else Pos u)), r)
  else None.

Definition hex_value (c : ascii) : option nat :=
  let n := nat_of_ascii c in
  if (48 <=? n)%nat && (n <=? 57)%nat then Some (n - 48)%nat
  else if (97 <=? n)%nat && (n <=? 102)%nat then Some (n - 87)%nat
  else if (65 <=? n)%nat && (n <=? 70)%nat then Some (n - 55)%nat
  else None.

(** The characters of a string literal after its opening quote, up to the
    closing one. An escape above 255 has no code unit here and is refused. *)
Fixpoint parse_chars (s : string) : option (string * string) :=
  match s with
  | EmptyString => None
  | String c r =>
      if c =? dquote then Some (EmptyString, r)
      else if c =? backslash then
        match r with
        | String e r1 =>
            if e =? "u" then
              match r1 with
              | String h1 (String h2 (String h3 (String h4 r2))) =>
                  a ← hex_value h1; b ← hex_value h2; c3 ← hex_value h3; d ← hex_value h4;
                  if ((a =? 0) && (b =? 0))%nat
                  then '(str, r') ← parse_chars r2;
                       Some (String (ascii_of_nat (16 * c3 + d)) str, r')
                  else None
              | _ => None
              end
            else
              ch ← (if e =? dquote then Some dquote
                    else if e =? backslash then Some backslash
                    else if e =? "/" then Some "/"
                    else if e =? "b" then Some "008"
                    else if e =? "t" then Some "009"
                    else if e =? "n" then Some "010"
                    else if e =? "f" then Some "012"
                    else if e =? "r" then Some "013"
                    else None);
              '(str, r') ← parse_chars r1;
              Some (String ch str, r')
        | EmptyString => None
        end
      else if (nat_of_ascii c <? 32)%nat then None
      else '(str, r') ← parse_chars r; Some (String c str, r')
  end.

(** [s] without its prefix [word], when it has it. *)
Fixpoint strip_prefix (word s : string) : option string :=
  match word with
  | EmptyString => Some s
  | String a word' =>
      match s with
      | String b s' => if a =? b then strip_prefix word' s' else None
      | EmptyString => None
      end
  end.

Definition expect (word : string) (v : value) (s : string) : option (value * string) :=
  r ← strip_prefix word s; Some (v, r).

Fixpoint parse_value (fuel : nat) (s : string) {struct fuel} : option (value * string) :=
  match fuel with
  | O => None
  | S fuel =>
      match skip_ws s with
      | EmptyString => None
      | String c r =>
          if c =? "n" then expect "ull" Null r
          else if c =? "t" then expect "rue" (Bool true) r
          else if c =? "f" then expect "alse" (Bool false) r
          else if c =? dquote then '(str, r') ← parse_chars r; Some (Str str, r')
          else if c =? "-" then parse_number true r
          else if c =? "[" then
            match skip_ws r with
            | EmptyString => None
            | String c' r' =>
                if c' =? "]" then Some (Array [], r')
                else '(x, r1) ← parse_value fuel r;
                     '(xs, r2) ← parse_elements fuel r1;
                     Some (Array (x :: xs), r2)
            end
          else if c =? "{" then
            match skip_ws r with
            | EmptyString => None
            | String c' r' =>
                if c' =? "}" then Some (Object [], r')
                else '(kv, r1) ← parse_member fuel r;
                     '(kvs, r2) ← parse_members fuel r1;
                     Some (Object (of_members (kv :: kvs)), r2)
            end
          else parse_number false (String c r)
      end
  end
with parse_elements (fuel : nat) (s : string) {struct fuel} : option (list value * string) :=
  match fuel with
  | O => None
  | S fuel =>
      match skip_ws s with
      | EmptyString => None
      | String c r =>
          if c =? "]" then Some ([], r)
          else if c =? "," then
            '(x, r1) ← parse_value fuel r;
            '(xs, r2) ← parse_elements fuel r1;
            Some (x :: xs, r2)
          else None
      end
  end
with parse_member (fuel : nat) (s : string) {struct fuel} : option ((string * value) * string) :=
  match fuel with
  | O => None
  | S fuel =>
      match skip_ws s with
      | EmptyString => None
      | String c r =>
          if c =? dquote then
            '(key, r1) ← parse_chars r;
            match skip_ws r1 with
            | EmptyString => None
            | String c' r2 =>
                if c' =? ":" then '(x, r3) ← parse_value fuel r2; Some ((key, x), r3)
                else None
            end
          else None
      end
  end
with parse_members (fuel : nat) (s : string) {struct fuel} : option (list (string * value) * string) :=
  match fuel with
  | O => None
  | S fuel =>
      match skip_ws s with
      | EmptyString => None
      | String c r =>
          if c =? "}" then Some ([], r)
          else if c =? "," then
            '(kv, r1) ← parse_member fuel r;
            '(kvs, r2) ← parse_members fuel r1;
            Some (kv :: kvs, r2)
          else None
      end
  end.

(** [JSON.parse s]: [None] stands for the [SyntaxError] it throws. The fuel
    is more than the nesting of any text of that length. *)
Definition parse (s : string) : option value :=
  '(v, r) ← parse_value (2 * String.length s + 2) s;
  match skip_ws r with
  | EmptyString => Some v
  | String _ _ => None
  end.

(** *** Measures and text fragments the proofs speak about *)

(** The text after the first element of an array, and after the first member
    of an object. *)
Fixpoint write_elements (xs : list value) (k : string) : string :=
  match xs with
  | [] => String "]" k
  | y :: ys => String "," (write y (write_elements ys k))
  end.

Fixpoint write_members (kvs : list (string * value)) (k : string) : string :=
  match kvs with
  | [] => String "}" k
  | (key, y) :: kvs' => String "," (write_string key (String ":" (write y (write_members kvs' k))))
  end.

(** How much fuel the parser needs to read a value back. *)
Fixpoint size (v : value) : nat :=
  match v with
  | Array l => S ((fix sum (l : list value) : nat :=
                     match l with [] => 0 | x :: xs => S (size x + sum xs) end) l)
  | Object m => S ((fix sum (m : list (string * value)) : nat :=
                      match m with [] => 0 | kv :: kvs => S (S (size (snd kv) + sum kvs)) end) m)
  | _ => 0
  end%nat.

Fixpoint elements_size (l : list value) : nat :=
  match l with [] => 0 | x :: xs => S (size x + elements_size xs) end%nat.

Fixpoint members_size (m : list (string * value)) : nat :=
  match m with [] => 0 | kv :: kvs => S (S (size (snd kv) + members_size kvs)) end%nat.

(** A text a number can stand in front of: it does not go on with a digit. *)
Definition follows (k : string) : Prop :=
  match k with
  | EmptyString => True
  | String c _ => digit c = None
  end.

(** A value the parser reads back from its text, whatever comes after it and
    with any fuel above its size. *)
Definition reads_back (v : value) : Prop :=
  forall fuel k, (size v < fuel)%nat -> follows k -> parse_value fuel (write v k) = Some (v, k).

End JSON.

Local Close Scope char_scope.

(** ** The JavaScript runtime the services run on *)

Module Js.

Inductive error : Type :=
  | SecurityError        (* storage access denied *)
  | QuotaExceededError   (* no room left for a write *)
  | SyntaxError          (* JSON.parse on a text that is no JSON *)
  | TypeError            (* a property of null, a call of a non-function *)
  | ApiError.            (* a rejected request to the AI service *)

(** How an evaluation ends: with a value, or with a thrown error. *)
Inductive completion (A : Type) : Type :=
  | Normal (a : A)
  | Throw (e : error).
Arguments Normal {A} a.
Arguments Throw {A} e.

Global Instance completion_ret : MRet completion := fun A a => Normal a.
Global Instance completion_bind : MBind completion := fun A B f m =>
  match m with
  | Normal a => f a
  | Throw e => Throw e
  end.

(** [window.localStorage] of the origin: its entries, whether the browser lets
    the page reach it at all, and the browser's quota policy: whether, with
    these entries stored, there is room to put this value under this key. *)
Record LocalStorage : Type := {
  items : gmap string string;
  accessible : bool;
  room : gmap string string -> string -> string -> bool;
}.

(** Whether the quota lets [value] go under [key] now. *)
Definition admits (st : LocalStorage) (key value : string) : bool :=
  room st (items st) key value.

(** A computation that may read and write the storage and may throw. *)
Definition Eff (A : Type) : Type := LocalStorage -> completion A * LocalStorage.

Global Instance Eff_ret : MRet Eff := fun A a st => (Normal a, st).
Global Instance Eff_bind : MBind Eff := fun A B f m st =>
  match m st with
  | (Normal a, st') => f a st'
  | (Throw e, st') => (Throw e, st')
  end.

Definition lift {A : Type} (c : completion A) : Eff A := fun st => (c, st).

(** [try { body } catch (error) { handler }] *)
Definition try_catch {A : Type} (body : Eff A) (handler : error -> Eff A) : Eff A := fun st =>
  match body st with
  | (Normal a, st') => (Normal a, st')
  | (Throw e, st') => handler e st'
  end.

(** The same around an evaluation that does not touch the storage. *)
Definition try_catch_pure {A : Type} (body : completion A) (handler : error -> completion A)
  : completion A :=
  match body with
  | Normal a => Normal a
  | Throw e => handler e
  end.

(** [localStorage.getItem(key)]; [None] is [null]. *)
Definition getItem (key : string) : Eff (option string) := fun st =>
  if accessible st then (Normal (items st !! key), st) else (Throw SecurityError, st).

(** [localStorage.setItem(key, value)]: all or nothing. *)
Definition setItem (key value : string) : Eff unit := fun st =>
  if negb (accessible st) then (Throw SecurityError, st)
  else if negb (admits st key value) then (Throw QuotaExceededError, st)
  else (Normal tt, {| items := <[key := value]> (items st);
                      accessible := accessible st; room := room st |}).

(** [localStorage.removeItem(key)] *)
Definition removeItem (key : string) : Eff unit := fun st =>
  if accessible st
  then (Normal tt, {| items := delete key (items st);
                      accessible := accessible st; room := room st |})
  else (Throw SecurityError, st).

(** A string in a condition: only the empty one is falsy. *)
Definition truthy (s : string) : bool :=
  match s with
  | EmptyString => false
  | String _ _ => true
  end.

(** [JSON.parse(text)] as an evaluation. *)
Definition JSON_parse (text : string) : completion JSON.value :=
  match JSON.parse text with
  | Some v => Normal v
  | None => Throw SyntaxError
  end.

(** [s.includes(part)] *)
Fixpoint includes (s part : string) : bool :=
  String.prefix part s ||
  match s with
  | EmptyString => false
  | String _ s' => includes s' part
  end.

Definition lower (c : ascii) : ascii :=
  let n := nat_of_ascii c in
  if (65 <=? n)%nat && (n <=? 90)%nat then ascii_of_nat (n + 32) else c.

(** [s.toLowerCase()] on the letters A to Z. *)
Fixpoint toLowerCase (s : string) : string :=
  match s with
  | EmptyString => EmptyString
  | String c s' => String (lower c) (toLowerCase s')
  end.

(** A [Map] with string keys, as the list of its entries in insertion order. *)
Section Map.
Context {V : Type}.

(** [map.set(k, v)]: a key that is there keeps its place. *)
Fixpoint Map_set (k : string) (v : V) (m : list (string * V)) : list (string * V) :=
  match m with
  | [] => [(k, v)]
  | (k', v') :: m' => if String.eqb k' k then (k', v) :: m' else (k', v') :: Map_set k v m'
  end.

(** [new Map(entries)] *)
Definition Map_new (entries : list (string * V)) : list (string * V) :=
  fold_left (fun m kv => Map_set (fst kv) (snd kv) m) entries [].

(** [map.values()] *)
Definition Map_values (m : list (string * V)) : list V := map snd m.
End Map.

End Js.

(** ** [services/gemini.ts]: the video lookup *)

Module Gemini.
Import Js.

Record VideoSearchResult : Type := {
  title : string;
  uri : string;
  source : string;
}.

(** The part of the service's answer the lookup reads; every field of it may
    be missing. *)
Record Web : Type := { web_uri : option string; web_title : option string }.
Record GroundingChunk : Type := { web : option Web }.
Record GroundingMetadata : Type := { groundingChunks : option (list GroundingChunk) }.
Record Candidate : Type := { groundingMetadata : option GroundingMetadata }.
Record Response : Type := { candidates : option (list Candidate) }.

(** The text sent to the model. *)
Definition video_prompt (query : string) : string :=
  ("Find the best video tutorial on YouTube for cooking " +:+ String JSON.dquote query
   +:+ String JSON.dquote ". Return the title and URL of the video if found.")%string.

(** [response.candidates?.[0]?.groundingMetadata?.groundingChunks] *)
Definition chunks_of (response : Response) : option (list GroundingChunk) :=
  cs ← candidates response;
  c ← head cs;
  md ← groundingMetadata c;
  groundingChunks md.

(** The body of the [forEach]: what one chunk adds to [results]. *)
Definition visit (results : list VideoSearchResult) (chunk : GroundingChunk) : list VideoSearchResult :=
  match web chunk with
  | Some {| web_uri := Some u; web_title := Some t |} =>
      if truthy u && truthy t then
        if includes u "youtube.com" || includes u "youtu.be" || includes u "vimeo.com"
           || includes u "tiktok.com" || includes (toLowerCase t) "video"
        then (results ++ [ {| title := t; uri := u;
                              source := if includes u "youtube" then "YouTube" else "Web" |} ])%list
        else results
      else results
  | _ => results
  end%string.

(** [findRecipeVideos(query)]; [generateContent] is the service: what the
    awaited request for a prompt comes back with, a response or a rejection.
    The result is what the returned promise settles to. *)
Definition findRecipeVideos (generateContent : string -> completion Response) (query : string)
  : completion (list VideoSearchResult) :=
  try_catch_pure
    (response ← generateContent (video_prompt query);
     let chunks := chunks_of response in
     let results :=
       match chunks with
       | Some chunks => fold_left visit chunks []
       | None => []
       end in
     (* Dedup results by URI *)
     mret (take 4 (Map_values (Map_new (map (fun item => (uri item, item)) results)))))
    (fun _ => mret []).

End Gemini.

(** ** [services/storage.ts]: the history store *)

Module HistoryStore.
Import Js.

Definition STORAGE_KEY : string := "culinaryai_history".

(** A video result as the object it is at run time. *)
Definition video_value (v : Gemini.VideoSearchResult) : JSON.value :=
  JSON.Object [("title", JSON.Str (Gemini.title v)); ("uri", JSON.Str (Gemini.uri v));
               ("source", JSON.Str (Gemini.source v))]%string.

(** The [SavedRecipe] object literal; [userRating] is not set. *)
Definition newItem (uuid : string) (now : Z) (query : string) (recipe : JSON.value)
    (videos : list Gemini.VideoSearchResult) : JSON.value :=
  JSON.Object [("id", JSON.Str uuid); ("timestamp", JSON.Number now); ("query", JSON.Str query);
               ("recipe", recipe); ("videos", JSON.Array (map video_value videos))]%string.

(** [history.unshift(item)]: only an array has the method. *)
Definition unshift (history item : JSON.value) : completion (list JSON.value) :=
  match history with
  | JSON.Array l => Normal (item :: l)
  | _ => Throw TypeError
  end.

(** [saveRecipeToHistory(query, recipe, videos)]; [uuid] and [now] are what
    [crypto.randomUUID()] and [Date.now()] return in this call, and the result
    [None] is [null]. *)
Definition saveRecipeToHistory (uuid : string) (now : Z) (query : string) (recipe : JSON.value)
    (videos : list Gemini.VideoSearchResult) : Eff (option JSON.value) :=
  try_catch
    (let newItem := newItem uuid now query recipe videos in
     existingHistoryJSON ← getItem STORAGE_KEY;
     history ← lift (match existingHistoryJSON with
                     | Some text => if truthy text then JSON_parse text else Normal (JSON.Array [])
                     | None => Normal (JSON.Array [])
                     end);
     (* Add new item to the beginning *)
     history ← lift (unshift history newItem);
     (* Limit history to last 20 items to save space *)
     let history := if (20 <? length history)%nat then take 20 history else history in
     _ ← setItem STORAGE_KEY (JSON.stringify (JSON.Array history));
     mret (Some newItem))
    (fun _ => mret None).

(** [getSavedRecipes()]: whatever [JSON.parse] makes of the stored text. *)
Definition getSavedRecipes : Eff JSON.value :=
  try_catch
    (json ← getItem STORAGE_KEY;
     lift (match json with
           | Some text => if truthy text then JSON_parse text else Normal (JSON.Array [])
           | None => Normal (JSON.Array [])
           end))
    (fun _ => mret (JSON.Array [])).

(** [item.id === id] for an item that is not [null]. *)
Definition id_is (id : string) (item : JSON.value) : bool :=
  match item with
  | JSON.Object m =>
      match JSON.get "id" m with
      | Some (JSON.Str s) => String.eqb s id
      | _ => false
      end
  | _ => false
  end.

(** The callback of the [map]: reading [item.id] throws on [null]; a match is
    copied with [userRating] set. *)
Definition rate (id : string) (rating : Z) (item : JSON.value) : completion JSON.value :=
  match item with
  | JSON.Null => Throw TypeError
  | JSON.Object m =>
      if id_is id item
      then Normal (JSON.Object (JSON.set "userRating" (JSON.Number rating) m))
      else Normal item
  | _ => Normal item
  end.

(** [history.map(callback)]: only an array has the method. *)
Definition array_map (callback : JSON.value -> completion JSON.value) (history : JSON.value)
  : completion (list JSON.value) :=
  match history with
  | JSON.Array l => mapM callback l
  | _ => Throw TypeError
  end.

(** [updateRecipeRating(id, rating)] *)
Definition updateRecipeRating (id : string) (rating : Z) : Eff JSON.value :=
  try_catch
    (existingHistoryJSON ← getItem STORAGE_KEY;
     match existingHistoryJSON with
     | Some text =>
         if truthy text then
           history ← lift (JSON_parse text);
           history ← lift (array_map (rate id rating) history);
           _ ← setItem STORAGE_KEY (JSON.stringify (JSON.Array history));
           mret (JSON.Array history)
         else mret (JSON.Array [])
     | None => mret (JSON.Array [])
     end)
    (fun _ => mret (JSON.Array [])).

(** [clearHistory()]: nothing catches what [removeItem] throws. *)
Definition clearHistory : Eff unit := removeItem STORAGE_KEY.

(** *** Vocabulary of the statements about the store *)

(** The storage after [text] went under the key. *)
Definition written (text : string) (st : LocalStorage) : LocalStorage :=
  {| items := <[STORAGE_KEY := text]> (items st); accessible := accessible st; room := room st |}.

(** The log the mutating operations start from: nothing, or an empty text,
    under the key counts as the empty log. *)
Definition existing (st : LocalStorage) : completion JSON.value :=
  match items st !! STORAGE_KEY with
  | Some text => if truthy text then JSON_parse text else Normal (JSON.Array [])
  | None => Normal (JSON.Array [])
  end.

(** An entry after a rating of [id]: a copy with [userRating] set when its
    identifier is [id], itself otherwise. *)
Definition rated (id : string) (rating : Z) (item : JSON.value) : JSON.value :=
  match item with
  | JSON.Object m =>
      if id_is id item then JSON.Object (JSON.set "userRating" (JSON.Number rating) m) else item
  | _ => item
  end.

Definition is_null (v : JSON.value) : bool :=
  match v with
  | JSON.Null => true
  | _ => false
  end.

(** A log whose entries can all be asked for their [id]. *)
Definition entries_ok (log : list JSON.value) : bool := forallb (fun e => negb (is_null e)) log.

(** One call of [saveRecipeToHistory]: its arguments and what the runtime
    hands it as identifier and time. *)
Record Append : Type := {
  a_uuid : string;
  a_now : Z;
  a_query : string;
  a_recipe : JSON.value;
  a_videos : list Gemini.VideoSearchResult;
}.

Definition append (c : Append) : Eff (option JSON.value) :=
  saveRecipeToHistory (a_uuid c) (a_now c) (a_query c) (a_recipe c) (a_videos c).

(** The session a call creates. *)
Definition session (c : Append) : JSON.value :=
  newItem (a_uuid c) (a_now c) (a_query c) (a_recipe c) (a_videos c).

(** The steps of an append that can fail, and when each does. *)
Inductive append_fails (item : JSON.value) (st : LocalStorage) : Prop :=
  | read_fails (e : error) :
      fst (getItem STORAGE_KEY st) = Throw e -> append_fails item st
  | parse_fails (text : string) :
      items st !! STORAGE_KEY = Some text -> truthy text = true -> JSON.parse text = None ->
      append_fails item st
  | unshift_fails (v : JSON.value) (e : error) :
      existing st = Normal v -> unshift v item = Throw e -> append_fails item st
  | write_fails (v : JSON.value) (history : list JSON.value) (e : error) :
      existing st = Normal v -> unshift v item = Normal history ->
      fst (setItem STORAGE_KEY (JSON.stringify (JSON.Array (take 20 history))) st) = Throw e ->
      append_fails item st.

(** The ways a rating update does not reach its write, or fails in it: no
    text under the key, a read or a parse that throws, a parsed value that is
    no list or has a [null] entry, a write that throws. *)
Inductive rating_fails (id : string) (rating : Z) (st : LocalStorage) : Prop :=
  | rating_key_absent :
      items st !! STORAGE_KEY = None -> rating_fails id rating st
  | rating_read_fails (e : error) :
      fst (getItem STORAGE_KEY st) = Throw e -> rating_fails id rating st
  | rating_parse_fails (text : string) :
      items st !! STORAGE_KEY = Some text -> JSON.parse text = None -> rating_fails id rating st
  | rating_map_fails (text : string) (v : JSON.value) (e : error) :
      items st !! STORAGE_KEY = Some text -> JSON.parse text = Some v ->
      array_map (rate id rating) v = Throw e -> rating_fails id rating st
  | rating_write_fails (text : string) (v : JSON.value) (history : list JSON.value) (e : error) :
      items st !! STORAGE_KEY = Some text -> JSON.parse text = Some v ->
      array_map (rate id rating) v = Normal history ->
      fst (setItem STORAGE_KEY (JSON.stringify (JSON.Array history)) st) = Throw e ->
      rating_fails id rating st.

(** The reading of a rating in which, of several entries with the identifier,
    only the first is touched: every later one comes back as it was. *)
Definition only_first_updated (id : string) (rating : Z) (st : LocalStorage) : Prop :=
  forall text log log' i j ei ej,
    items st !! STORAGE_KEY = Some text -> JSON.parse text = Some (JSON.Array log) ->
    fst (updateRecipeRating id rating st) = Normal (JSON.Array log') ->
    (i < j)%nat ->
    log !! i = Some ei -> id_is id ei = true ->
    log !! j = Some ej -> id_is id ej = true ->
    log' !! j = Some ej.

(** Unfolds one storage computation down to its primitive steps. *)
Ltac run :=
  unfold saveRecipeToHistory, getSavedRecipes, updateRecipeRating, clearHistory, append,
    try_catch, lift, mbind, mret, Eff_bind, Eff_ret, getItem, removeItem; cbn beta iota.

End HistoryStore.

(** ** [App.tsx]: the rating handler *)

Module App.
Import Js.

(** The part of the component state the handler touches. *)
Record State : Type := {
  savedRecipes : JSON.value;
  currentSavedId : option string;
  currentUserRating : Z;
}.

(** [handleRateRecipe(rating)] *)
Definition handleRateRecipe (rating : Z) (app : State) : Eff State :=
  match currentSavedId app with
  | Some id =>
      if truthy id then
        updated ← HistoryStore.updateRecipeRating id rating;
        mret {| savedRecipes := updated; currentSavedId := currentSavedId app;
                currentUserRating := rating |}
      else mret app
  | None => mret app
  end.

End App.

(** ** Concrete stores and calls the statements are tried on *)

Module Examples.
Import Js HistoryStore.

(** A quota that lets a value of up to [n] characters in. *)
Definition up_to (n : nat) : gmap string string -> string -> string -> bool :=
  fun _ _ value => (String.length value <=? n)%nat.

Definition empty_store : LocalStorage :=
  {| items := ∅; accessible := true; room := up_to 5000 |}.

(** A storage holding [text] under the key. *)
Definition store_of (text : string) : LocalStorage :=
  {| items := {[ STORAGE_KEY := text ]}; accessible := true; room := up_to 5000 |}.

(** A storage the browser does not let the page reach. *)
Definition blocked_store : LocalStorage :=
  {| items := ∅; accessible := false; room := up_to 5000 |}.

Definition pasta : JSON.value :=
  JSON.Object [("title", JSON.Str "Pasta"); ("servings", JSON.Number 2)]%string.

Definition clip : Gemini.VideoSearchResult :=
  {| Gemini.title := "Pasta in ten minutes"; Gemini.uri := "https://youtu.be/abc";
     Gemini.source := "Web" |}%string.

Definition call (id : string) : Append :=
  {| a_uuid := id; a_now := 1700000000000; a_query := "pasta"; a_recipe := pasta;
     a_videos := [clip] |}%string.

(** Twenty-one appends, [s1] first. *)
Definition calls21 : list Append :=
  map call ["s1"; "s2"; "s3"; "s4"; "s5"; "s6"; "s7"; "s8"; "s9"; "s10"; "s11"; "s12"; "s13";
            "s14"; "s15"; "s16"; "s17"; "s18"; "s19"; "s20"; "s21"]%string.

(** A log of two sessions, [b] the newer one. *)
Definition two_sessions : list JSON.value := [session (call "b"); session (call "a")]%string.

(** A log in which two entries carry the identifier [a]. *)
Definition twins : list JSON.value :=
  [ JSON.Object [("id", JSON.Str "a"); ("query", JSON.Str "first")];
    JSON.Object [("id", JSON.Str "a"); ("query", JSON.Str "second")] ]%string.

(** A storage whose text under the key is no JSON. *)
Definition garbled_store : LocalStorage := store_of "not json"%string.

(** A storage whose text under the key is JSON, of an object and not a list. *)
Definition object_store : LocalStorage := store_of "{}"%string.

(** A storage that holds the two sessions and has room for ten characters
    only from now on. *)
Definition full_store : LocalStorage :=
  {| items := {[ STORAGE_KEY := JSON.stringify (JSON.Array two_sessions) ]};
     accessible := true; room := up_to 10 |}.

(** The service answering with two candidates of one address and two titles. *)
Definition same_address (prompt : string) : completion Gemini.Response :=
  let chunk t := {| Gemini.web := Some {| Gemini.web_uri := Some "https://youtu.be/abc";
                                          Gemini.web_title := Some t |} |} in
  Normal {| Gemini.candidates := Some [ {| Gemini.groundingMetadata :=
      Some {| Gemini.groundingChunks := Some [chunk "First title"; chunk "Second title"] |} |} ] |}%string.

End Examples.

(** * Properties *)

(** ** The JSON codec: writing a value and reading it back *)

Module JSONFacts.
Import JSON.
Local Open Scope char_scope.

Lemma parse_uint_write (u : uint) (k : string) :
  follows k -> parse_uint (write_uint u k) = (u, k).
Proof.
  intros Hk. induction u; simpl; try (rewrite IHu; reflexivity).
  destruct k as [|c r]; simpl in *; [reflexivity | now rewrite Hk].
Qed.

Lemma int_syntax_pos (p : positive) : int_syntax (Pos.to_uint p) = true.
Proof.
  pose proof (DecimalPos.Unsigned.of_to p) as Hof.
  pose proof (DecimalPos.Unsigned.to_of (Pos.to_uint p)) as Hto.
  rewrite Hof in Hto. simpl in Hto.
  pose proof (DecimalPos.Unsigned.to_uint_nonnil p) as Hnil.
  destruct (Pos.to_uint p) as [|u|u|u|u|u|u|u|u|u|u]; try reflexivity; [congruence|].
  unfold unorm in Hto. rewrite nzhead_D0 in Hto.
  destruct (nzhead u) eqn:En; try discriminate.
  - injection Hto as ->. reflexivity.
  - exfalso. exact (nzhead_nonzero _ _ En).
Qed.

Lemma int_syntax_to_int (n : Z) :
  match Z.to_int n with Pos u | Neg u => int_syntax u = true end.
Proof. destruct n; simpl; auto using int_syntax_pos. Qed.

Lemma parse_number_write (n : Z) (k : string) :
  follows k ->
  match Z.to_int n with
  | Pos u => parse_number false (write_uint u k)
  | Neg u => parse_number true (write_uint u k)
  end = Some (Number n, k).
Proof.
  intros Hk. pose proof (int_syntax_to_int n) as Hs. pose proof (DecimalZ.of_to n) as Hn.
  unfold parse_number.
  destruct (Z.to_int n) as [u|u]; rewrite parse_uint_write by assumption;
    rewrite Hs, Hn; reflexivity.
Qed.

Lemma write_uint_head (u : uint) (k : string) :
  int_syntax u = true ->
  exists c r, write_uint u k = String c r /\ is_Some (digit c).
Proof.
  destruct u; simpl; intros H; try discriminate; eexists _, _; (split; [reflexivity | eexists; reflexivity]).
Qed.

Lemma digit_cases (c : ascii) :
  is_Some (digit c) ->
  c = "0" \/ c = "1" \/ c = "2" \/ c = "3" \/ c = "4" \/ c = "5" \/ c = "6" \/ c = "7" \/ c = "8" \/ c = "9".
Proof.
  unfold digit. intros [d Hd].
  repeat match type of Hd with
  | context [Ascii.eqb c ?x] => destruct (Ascii.eqb_spec c x); [subst; tauto |]
  end.
  discriminate.
Qed.

Lemma parse_value_number (fuel : nat) (n : Z) (k : string) :
  follows k -> parse_value (S fuel) (write_number n k) = Some (Number n, k).
Proof.
  intros Hk. pose proof (parse_number_write n k Hk) as Hp.
  pose proof (int_syntax_to_int n) as Hs.
  unfold write_number. destruct (Z.to_int n) as [u|u].
  - destruct (write_uint_head u k Hs) as (c & r & Hw & Hc).
    rewrite Hw in *. apply digit_cases in Hc.
    destruct Hc as [->|[->|[->|[->|[->|[->|[->|[->|[->| ->]]]]]]]]]; exact Hp.
  - exact Hp.
Qed.

Lemma parse_chars_write (s k : string) :
  parse_chars (write_chars s (String dquote k)) = Some (s, k).
Proof.
  induction s as [|c s IH]; [reflexivity|].
  simpl write_chars.
  destruct c as [[] [] [] [] [] [] [] []];
    (cbn -[parse_chars write_chars]; simpl parse_chars; rewrite IH; reflexivity).
Qed.

Lemma write_array_cons (x : value) (xs : list value) (k : string) :
  write (Array (x :: xs)) k = String "[" (write x (write_elements xs k)).
Proof.
  simpl. do 2 f_equal. induction xs as [|y ys IH]; simpl; [reflexivity | now rewrite IH].
Qed.

Lemma write_object_cons (key : string) (x : value) (kvs : list (string * value)) (k : string) :
  write (Object ((key, x) :: kvs)) k =
  String "{" (write_string key (String ":" (write x (write_members kvs k)))).
Proof.
  simpl. do 4 f_equal. induction kvs as [|[key' y] kvs IH]; simpl; [reflexivity | now rewrite IH].
Qed.

Lemma size_array (l : list value) : size (Array l) = S (elements_size l).
Proof. reflexivity. Qed.

Lemma size_object (m : list (string * value)) : size (Object m) = S (members_size m).
Proof. reflexivity. Qed.

(** The text of a value starts with a character that is neither white space
    nor a closing bracket. *)
Lemma write_head (v : value) (k : string) :
  exists c r, write v k = String c r /\ is_ws c = false /\
              (c =? "]") = false /\ (c =? "}") = false.
Proof.
  destruct v as [|[]|n|s|l|m]; try (eexists _, _; split; [reflexivity | repeat split]).
  simpl. unfold write_number. pose proof (int_syntax_to_int n) as Hs.
  destruct (Z.to_int n) as [u|u].
  - destruct (write_uint_head u k Hs) as (c & r & Hw & Hc). exists c, r.
    split; [exact Hw|]. apply digit_cases in Hc.
    destruct Hc as [->|[->|[->|[->|[->|[->|[->|[->|[->| ->]]]]]]]]]; repeat split.
  - eexists _, _; split; [reflexivity | repeat split].
Qed.

Lemma skip_ws_write (v : value) (k : string) : skip_ws (write v k) = write v k.
Proof.
  destruct (write_head v k) as (c & r & -> & Hc & _). simpl. now rewrite Hc.
Qed.

Lemma parse_array_nonempty (fuel : nat) (r : string) (c : ascii) (r0 : string) :
  skip_ws r = String c r0 -> (c =? "]") = false ->
  parse_value (S fuel) (String "[" r) =
  '(x, r1) ← parse_value fuel r; '(xs, r2) ← parse_elements fuel r1; Some (Array (x :: xs), r2).
Proof. intros H1 H2. simpl. rewrite H1, H2. reflexivity. Qed.

Lemma parse_object_nonempty (fuel : nat) (r : string) (c : ascii) (r0 : string) :
  skip_ws r = String c r0 -> (c =? "}") = false ->
  parse_value (S fuel) (String "{" r) =
  '(kv, r1) ← parse_member fuel r; '(kvs, r2) ← parse_members fuel r1;
  Some (Object (of_members (kv :: kvs)), r2).
Proof. intros H1 H2. simpl. rewrite H1, H2. reflexivity. Qed.

Lemma parse_elements_write (xs : list value) :
  Forall reads_back xs ->
  forall fuel k, (elements_size xs < fuel)%nat ->
  parse_elements fuel (write_elements xs k) = Some (xs, k).
Proof.
  induction 1 as [|x xs Hx _ IH]; intros fuel k Hf.
  - destruct fuel; [lia | reflexivity].
  - destruct fuel as [|fuel]; [lia|]. simpl in Hf.
    change (parse_elements (S fuel) (write_elements (x :: xs) k))
      with ('(y, r1) ← parse_value fuel (write x (write_elements xs k));
            '(ys, r2) ← parse_elements fuel r1; Some (y :: ys, r2)).
    rewrite Hx; [| lia | destruct xs; reflexivity]. simpl.
    rewrite IH by lia. reflexivity.
Qed.

Lemma parse_member_write (key : string) (x : value) (fuel : nat) (k : string) :
  reads_back x -> (S (size x) < fuel)%nat -> follows k ->
  parse_member fuel (write_string key (String ":" (write x k))) = Some ((key, x), k).
Proof.
  intros Hx Hf Hk. destruct fuel as [|fuel]; [lia|].
  unfold write_string.
  change (parse_member (S fuel) (String dquote (write_chars key (String dquote (String ":" (write x k))))))
    with ('(key', r1) ← parse_chars (write_chars key (String dquote (String ":" (write x k))));
          match skip_ws r1 with
          | EmptyString => None
          | String c' r2 =>
              if c' =? ":" then '(y, r3) ← parse_value fuel r2; Some ((key', y), r3) else None
          end).
  rewrite parse_chars_write. simpl. rewrite Hx by (assumption || lia). reflexivity.
Qed.

Lemma parse_members_write (kvs : list (string * value)) :
  Forall (fun kv => reads_back (snd kv)) kvs ->
  forall fuel k, (members_size kvs < fuel)%nat ->
  parse_members fuel (write_members kvs k) = Some (kvs, k).
Proof.
  induction 1 as [|[key x] kvs Hx _ IH]; intros fuel k Hf.
  - destruct fuel; [lia | reflexivity].
  - destruct fuel as [|fuel]; [lia|]. simpl in Hf, Hx.
    change (parse_members (S fuel) (write_members ((key, x) :: kvs) k))
      with ('(kv, r1) ← parse_member fuel (write_string key (String ":" (write x (write_members kvs k))));
            '(kvs', r2) ← parse_members fuel r1; Some (kv :: kvs', r2)).
    rewrite parse_member_write; [| assumption | lia | destruct kvs as [|[]]; reflexivity]. simpl.
    rewrite IH by lia. reflexivity.
Qed.

Lemma set_fresh (k : string) (v : value) (m : list (string * value)) :
  existsb (String.eqb k) (keys m) = false -> set k v m = (m ++ [(k, v)])%list.
Proof.
  induction m as [|[k' v'] m IH]; simpl; [reflexivity|].
  rewrite orb_false_iff, String.eqb_sym. intros [-> H]. now rewrite IH.
Qed.

Lemma existsb_keys_app (k : string) (m1 m2 : list (string * value)) :
  existsb (String.eqb k) (keys (m1 ++ m2)%list) =
  existsb (String.eqb k) (keys m1) || existsb (String.eqb k) (keys m2).
Proof. unfold keys. now rewrite map_app, existsb_app. Qed.

Lemma fold_set_nodup (m acc : list (string * value)) :
  nodup_keys m = true ->
  (forall k, existsb (String.eqb k) (keys acc) = true -> existsb (String.eqb k) (keys m) = false) ->
  fold_left (fun acc kv => set (fst kv) (snd kv) acc) m acc = (acc ++ m)%list.
Proof.
  revert acc. induction m as [|[k v] m IH]; intros acc Hm Hacc; simpl.
  - now rewrite app_nil_r.
  - simpl in Hm. apply andb_true_iff in Hm as [Hk Hm]. apply negb_true_iff in Hk.
    rewrite set_fresh.
    + rewrite IH; [now rewrite <- app_assoc | assumption |].
      intros k' Hk'. rewrite existsb_keys_app in Hk'. simpl in Hk'.
      apply orb_true_iff in Hk' as [Hk' | Hk'].
      * apply Hacc in Hk'. simpl in Hk'. now apply orb_false_iff in Hk'.
      * rewrite orb_false_r in Hk'. apply String.eqb_eq in Hk' as ->. exact Hk.
    + destruct (existsb (String.eqb k) (keys acc)) eqn:E; [|reflexivity].
      apply Hacc in E. simpl in E. now rewrite String.eqb_refl in E.
Qed.

Lemma of_members_nodup (m : list (string * value)) :
  nodup_keys m = true -> of_members m = m.
Proof. intros H. unfold of_members. now rewrite fold_set_nodup. Qed.

(** Reading back what [write] wrote gives the value and the text after it. *)
Lemma parse_value_write (v : value) : wf v = true -> reads_back v.
Proof.
  induction v as [| b | n | s | l IH | m IH] using value_ind; intros Hwf fuel k Hf Hk;
    (destruct fuel as [|fuel]; [lia|]).
  - reflexivity.
  - destruct b; reflexivity.
  - now apply parse_value_number.
  - simpl write. unfold write_string.
    change (parse_value (S fuel) (String dquote (write_chars s (String dquote k))))
      with ('(str, r') ← parse_chars (write_chars s (String dquote k)); Some (Str str, r')).
    now rewrite parse_chars_write.
  - destruct l as [|x xs]; [reflexivity|].
    rewrite write_array_cons. simpl in Hwf. apply andb_true_iff in Hwf as [Hx Hxs].
    rewrite size_array in Hf. simpl in Hf.
    destruct (write_head x (write_elements xs k)) as (c & r & Hw & Hc & Hb & _).
    rewrite (parse_array_nonempty fuel _ c r); [| rewrite skip_ws_write; exact Hw | exact Hb].
    apply Forall_cons in IH as [IHx IHxs].
    rewrite IHx; [| assumption | lia | destruct xs; reflexivity]. simpl.
    rewrite parse_elements_write; [reflexivity | | lia].
    apply Forall_forall. intros y Hy. rewrite Forall_forall in IHxs. apply IHxs; [assumption|].
    rewrite forallb_forall in Hxs. apply Hxs. now apply list_elem_of_In.
  - destruct m as [|[key x] kvs]; [reflexivity|].
    rewrite write_object_cons. pose proof Hwf as Hwf'. simpl in Hwf.
    apply andb_true_iff in Hwf as [Hnd Hall]. apply andb_true_iff in Hall as [Hx Hkvs].
    rewrite size_object in Hf. simpl in Hf.
    rewrite (parse_object_nonempty fuel _ dquote (write_chars key (String dquote
               (String ":" (write x (write_members kvs k)))))); [| reflexivity | reflexivity].
    apply Forall_cons in IH as [IHx IHkvs]. simpl in IHx.
    rewrite parse_member_write; [| now apply IHx | lia | destruct kvs as [|[]]; reflexivity]. simpl.
    rewrite parse_members_write; [| | lia].
    + simpl. rewrite (of_members_nodup ((key, x) :: kvs)); [reflexivity | exact Hnd].
    + apply Forall_forall. intros kv Hkv. rewrite Forall_forall in IHkvs. apply IHkvs; [assumption|].
      rewrite forallb_forall in Hkvs. apply Hkvs. now apply list_elem_of_In.
Qed.

Lemma length_write_uint (u : uint) (k : string) :
  (String.length k <= String.length (write_uint u k))%nat.
Proof. induction u; simpl; lia. Qed.

Lemma length_write_char (c : ascii) (k : string) :
  (String.length k < String.length (write_char c k))%nat.
Proof.
  unfold write_char.
  repeat match goal with |- context [if ?b then _ else _] => destruct b end; simpl; lia.
Qed.

Lemma length_write_chars (s k : string) :
  (String.length k <= String.length (write_chars s k))%nat.
Proof.
  induction s as [|c s IH]; simpl; [lia|].
  pose proof (length_write_char c (write_chars s k)). lia.
Qed.

Lemma length_write_string (s k : string) :
  (S (S (String.length k)) <= String.length (write_string s k))%nat.
Proof.
  unfold write_string. simpl.
  pose proof (length_write_chars s (String dquote k)). simpl in *. lia.
Qed.

Lemma length_write (v : value) :
  forall k, (size v + String.length k < String.length (write v k))%nat.
Proof.
  induction v as [| b | n | s | l IH | m IH] using value_ind; intros k.
  - simpl. lia.
  - destruct b; simpl; lia.
  - simpl. unfold write_number. pose proof (int_syntax_to_int n) as Hs.
    destruct (Z.to_int n) as [u|u].
    + destruct u; try discriminate; simpl;
        match goal with |- context [write_uint ?u k] => pose proof (length_write_uint u k) end; lia.
    + simpl. pose proof (length_write_uint u k). lia.
  - simpl size. simpl write. pose proof (length_write_string s k). lia.
  - destruct l as [|x xs]; [simpl; lia|].
    rewrite write_array_cons, size_array. apply Forall_cons in IH as [IHx IHxs].
    assert (Hrest : forall k, (elements_size xs + String.length k < String.length (write_elements xs k))%nat).
    { clear IHx. induction IHxs as [|y ys Hy _ IHys]; intros k'; simpl; [lia|].
      specialize (Hy (write_elements ys k')). specialize (IHys k'). lia. }
    specialize (IHx (write_elements xs k)). specialize (Hrest k). simpl. lia.
  - destruct m as [|[key x] kvs]; [simpl; lia|].
    rewrite write_object_cons, size_object. apply Forall_cons in IH as [IHx IHkvs]. simpl in IHx.
    assert (Hrest : forall k, (members_size kvs + String.length k < String.length (write_members kvs k))%nat).
    { clear IHx. induction IHkvs as [|[key' y] ys Hy _ IHys]; intros k'; simpl; [lia|].
      simpl in Hy. specialize (Hy (write_members ys k')). specialize (IHys k').
      pose proof (length_write_string key' (String ":" (write y (write_members ys k')))).
      simpl in *. lia. }
    specialize (IHx (write_members kvs k)). specialize (Hrest k).
    pose proof (length_write_string key (String ":" (write x (write_members kvs k)))).
    simpl in *. lia.
Qed.

(** [JSON.parse (JSON.stringify v)] is [v]. *)
Lemma parse_stringify (v : value) : wf v = true -> parse (stringify v) = Some v.
Proof.
  intros Hwf. unfold parse, stringify.
  rewrite (parse_value_write v Hwf); [reflexivity | | exact I].
  pose proof (length_write v EmptyString). simpl in *. lia.
Qed.

Lemma existsb_keys_set (k k' : string) (v : value) (m : list (string * value)) :
  existsb (String.eqb k') (keys (set k v m)) =
  existsb (String.eqb k') (keys m) || String.eqb k' k.
Proof.
  induction m as [|[k0 v0] m IH]; simpl.
  - now rewrite orb_false_r.
  - destruct (String.eqb_spec k0 k) as [->|Hne]; simpl.
    + destruct (String.eqb k' k); simpl; [reflexivity | now rewrite orb_false_r].
    + rewrite IH. now rewrite orb_assoc.
Qed.

Lemma nodup_keys_set (k : string) (v : value) (m : list (string * value)) :
  nodup_keys m = true -> nodup_keys (set k v m) = true.
Proof.
  induction m as [|[k0 v0] m IH]; simpl; [reflexivity|].
  intros H. apply andb_true_iff in H as [H0 Hm].
  destruct (String.eqb_spec k0 k) as [->|Hne]; simpl.
  - now rewrite H0, Hm.
  - rewrite existsb_keys_set, IH by assumption. apply negb_true_iff in H0. rewrite H0. simpl.
    destruct (String.eqb_spec k0 k); [contradiction | reflexivity].
Qed.

Lemma wf_members_set (k : string) (v : value) (m : list (string * value)) :
  wf v = true -> forallb (fun kv => wf (snd kv)) m = true ->
  forallb (fun kv => wf (snd kv)) (set k v m) = true.
Proof.
  intros Hv. induction m as [|[k0 v0] m IH]; simpl; [now rewrite Hv|].
  intros H. apply andb_true_iff in H as [H0 Hm].
  destruct (String.eqb k0 k); simpl; [now rewrite Hv, Hm | now rewrite H0, IH].
Qed.

Lemma wf_object_set (k : string) (v : value) (m : list (string * value)) :
  wf v = true -> wf (Object m) = true -> wf (Object (set k v m)) = true.
Proof.
  simpl. intros Hv H. apply andb_true_iff in H as [H1 H2].
  now rewrite nodup_keys_set, wf_members_set.
Qed.

Lemma wf_fold_set (m acc : list (string * value)) :
  forallb (fun kv => wf (snd kv)) m = true -> wf (Object acc) = true ->
  wf (Object (fold_left (fun acc kv => set (fst kv) (snd kv) acc) m acc)) = true.
Proof.
  revert acc. induction m as [|[k v] m IH]; intros acc Hm Hacc; [exact Hacc|].
  simpl in Hm. apply andb_true_iff in Hm as [Hv Hm].
  simpl fold_left. apply IH; [assumption|]. now apply wf_object_set.
Qed.

Lemma wf_of_members (m : list (string * value)) :
  forallb (fun kv => wf (snd kv)) m = true -> wf (Object (of_members m)) = true.
Proof. intros H. unfold of_members. now apply wf_fold_set. Qed.

Lemma expect_wf (word : string) (v0 : value) (s : string) (v : value) (r : string) :
  wf v0 = true -> expect word v0 s = Some (v, r) -> wf v = true.
Proof. unfold expect. destruct (strip_prefix word s); simpl; congruence. Qed.

Lemma parse_number_wf (b : bool) (s : string) (v : value) (r : string) :
  parse_number b s = Some (v, r) -> wf v = true.
Proof.
  unfold parse_number. destruct (parse_uint s) as [u r']. destruct (int_syntax u); [|discriminate].
  now intros [= <- _].
Qed.

(** Whatever the parser returns has no object with a repeated key. *)
Lemma parse_fuel_wf (fuel : nat) :
  (forall s v r, parse_value fuel s = Some (v, r) -> wf v = true) /\
  (forall s l r, parse_elements fuel s = Some (l, r) -> forallb wf l = true) /\
  (forall s kv r, parse_member fuel s = Some (kv, r) -> wf (snd kv) = true) /\
  (forall s m r, parse_members fuel s = Some (m, r) -> forallb (fun kv => wf (snd kv)) m = true).
Proof.
  induction fuel as [|fuel (IHv & IHe & IHm & IHms)]; [repeat split; discriminate|].
  repeat split.
  - intros s v r H. simpl in H. destruct (skip_ws s) as [|c r0]; [discriminate|].
    repeat match type of H with
    | (if ?b then _ else _) = _ => destruct b
    end;
      try (eapply expect_wf; [|exact H]; reflexivity);
      try (eapply parse_number_wf; exact H).
    + destruct (parse_chars r0) as [[str r']|]; simpl in H; [|discriminate]. now injection H as <- _.
    + destruct (skip_ws r0) as [|c' r']; [discriminate|].
      destruct (c' =? "]"); [now injection H as <- _|].
      destruct (parse_value fuel r0) as [[x r1]|] eqn:Ex; simpl in H; [|discriminate].
      destruct (parse_elements fuel r1) as [[xs r2]|] eqn:Exs; simpl in H; [|discriminate].
      injection H as <- _. simpl. erewrite IHv, IHe by eassumption. reflexivity.
    + destruct (skip_ws r0) as [|c' r']; [discriminate|].
      destruct (c' =? "}"); [now injection H as <- _|].
      destruct (parse_member fuel r0) as [[kv r1]|] eqn:Ex; simpl in H; [|discriminate].
      destruct (parse_members fuel r1) as [[kvs r2]|] eqn:Exs; simpl in H; [|discriminate].
      injection H as <- _. apply wf_of_members. simpl.
      erewrite IHm, IHms by eassumption. reflexivity.
  - intros s l r H. simpl in H. destruct (skip_ws s) as [|c r0]; [discriminate|].
    destruct (c =? "]"); [now injection H as <- _|].
    destruct (c =? ","); [|discriminate].
    destruct (parse_value fuel r0) as [[x r1]|] eqn:Ex; simpl in H; [|discriminate].
    destruct (parse_elements fuel r1) as [[xs r2]|] eqn:Exs; simpl in H; [|discriminate].
    injection H as <- _. simpl. erewrite IHv, IHe by eassumption. reflexivity.
  - intros s kv r H. simpl in H. destruct (skip_ws s) as [|c r0]; [discriminate|].
    destruct (c =? dquote); [|discriminate].
    destruct (parse_chars r0) as [[key r1]|]; simpl in H; [|discriminate].
    destruct (skip_ws r1) as [|c' r2]; [discriminate|].
    destruct (c' =? ":"); [|discriminate].
    destruct (parse_value fuel r2) as [[x r3]|] eqn:Ex; simpl in H; [|discriminate].
    injection H as <- _. simpl. eauto.
  - intros s m r H. simpl in H. destruct (skip_ws s) as [|c r0]; [discriminate|].
    destruct (c =? "}"); [now injection H as <- _|].
    destruct (c =? ","); [|discriminate].
    destruct (parse_member fuel r0) as [[kv r1]|] eqn:Ex; simpl in H; [|discriminate].
    destruct (parse_members fuel r1) as [[kvs r2]|] eqn:Exs; simpl in H; [|discriminate].
    injection H as <- _. simpl. erewrite IHm, IHms by eassumption. reflexivity.
Qed.

Lemma parse_wf (s : string) (v : value) : parse s = Some v -> wf v = true.
Proof.
  unfold parse. destruct (parse_value _ s) as [[v' r]|] eqn:E; simpl; [|discriminate].
  destruct (skip_ws r); [|discriminate]. intros [= <-].
  eapply (proj1 (parse_fuel_wf _)). exact E.
Qed.

(** The empty text is no JSON. *)
Lemma parse_empty : parse EmptyString = None.
Proof. reflexivity. Qed.

End JSONFacts.

(** ** The history store *)

Module HistoryFacts.
Import Js HistoryStore.

Lemma truthy_stringify (v : JSON.value) : truthy (JSON.stringify v) = true.
Proof.
  unfold JSON.stringify. destruct (JSONFacts.write_head v EmptyString) as (c & r & -> & _).
  reflexivity.
Qed.

Lemma truthy_parse (text : string) (v : JSON.value) : JSON.parse text = Some v -> truthy text = true.
Proof. destruct text; [discriminate | reflexivity]. Qed.

Lemma JSON_parse_stringify (v : JSON.value) :
  JSON.wf v = true -> JSON_parse (JSON.stringify v) = Normal v.
Proof. intros H. unfold JSON_parse. now rewrite JSONFacts.parse_stringify. Qed.

(** Trimming to 20 is [take 20]. *)
Lemma limit_take {A : Type} (l : list A) :
  (if (20 <? length l)%nat then take 20 l else l) = take 20 l.
Proof.
  destruct (Nat.ltb_spec 20 (length l)); [reflexivity|].
  symmetry. apply take_ge. lia.
Qed.

Lemma setItem_ok (text : string) (st : LocalStorage) :
  accessible st = true -> admits st STORAGE_KEY text = true ->
  setItem STORAGE_KEY text st = (Normal tt, written text st).
Proof. intros Ha Hq. unfold setItem, written. now rewrite Ha, Hq. Qed.

Lemma setItem_cases (text : string) (st : LocalStorage) :
  setItem STORAGE_KEY text st = (Normal tt, written text st) \/
  exists e, setItem STORAGE_KEY text st = (Throw e, st).
Proof.
  unfold setItem, written. destruct (accessible st); simpl; [|right; eauto].
  destruct (admits st STORAGE_KEY text); simpl; [left; reflexivity | right; eauto].
Qed.

Lemma existing_written (v : JSON.value) (st : LocalStorage) :
  JSON.wf v = true -> existing (written (JSON.stringify v) st) = Normal v.
Proof.
  intros H. unfold existing, written. simpl. rewrite lookup_insert_eq.
  now rewrite truthy_stringify, JSON_parse_stringify.
Qed.

(** What an append does, in terms of the log it finds. *)
Lemma saveRecipeToHistory_eval uuid now query recipe videos (st : LocalStorage) :
  saveRecipeToHistory uuid now query recipe videos st =
  if accessible st then
    match existing st with
    | Normal (JSON.Array old) =>
        let text := JSON.stringify (JSON.Array (take 20 (newItem uuid now query recipe videos :: old))) in
        match setItem STORAGE_KEY text st with
        | (Normal _, st') => (Normal (Some (newItem uuid now query recipe videos)), st')
        | (Throw _, st') => (Normal None, st')
        end
    | _ => (Normal None, st)
    end
  else (Normal None, st).
Proof.
  run. unfold existing. destruct (accessible st); [|reflexivity].
  destruct (match items st !! STORAGE_KEY with
            | Some text => if truthy text then JSON_parse text else Normal (JSON.Array [])
            | None => Normal (JSON.Array [])
            end) as [[| | | |old|]|]; try reflexivity.
  simpl unshift. cbn beta iota. rewrite limit_take.
  destruct (setItem _ _ st) as [[[]|] ?]; reflexivity.
Qed.

Lemma getSavedRecipes_eval (st : LocalStorage) :
  getSavedRecipes st =
  if accessible st then
    match existing st with
    | Normal v => (Normal v, st)
    | Throw _ => (Normal (JSON.Array []), st)
    end
  else (Normal (JSON.Array []), st).
Proof.
  run. unfold existing. destruct (accessible st); [|reflexivity].
  destruct (match items st !! STORAGE_KEY with
            | Some text => if truthy text then JSON_parse text else Normal (JSON.Array [])
            | None => Normal (JSON.Array [])
            end); reflexivity.
Qed.

Lemma rate_rated (id : string) (rating : Z) (e : JSON.value) :
  is_null e = false -> rate id rating e = Normal (rated id rating e).
Proof.
  destruct e; try discriminate; try reflexivity.
  intros _. unfold rate, rated. destruct (id_is id _); reflexivity.
Qed.

Lemma mapM_completion_cons {A B : Type} (f : A -> completion B) (x : A) (l : list A) :
  mapM f (x :: l) =
  match f x with
  | Normal y => match mapM f l with Normal k => Normal (y :: k) | Throw e => Throw e end
  | Throw e => Throw e
  end.
Proof. reflexivity. Qed.

Lemma mapM_rate (id : string) (rating : Z) (log : list JSON.value) :
  entries_ok log = true -> mapM (rate id rating) log = Normal (map (rated id rating) log).
Proof.
  induction log as [|e log IH]; [reflexivity|].
  intros H. apply andb_true_iff in H as [He Hlog]. apply negb_true_iff in He.
  rewrite mapM_completion_cons, (rate_rated _ _ _ He), (IH Hlog). reflexivity.
Qed.

Lemma mapM_rate_null (id : string) (rating : Z) (log : list JSON.value) :
  entries_ok log = false -> mapM (rate id rating) log = Throw TypeError.
Proof.
  induction log as [|e log IH]; [discriminate|].
  intros H. apply andb_false_iff in H as [He | Hlog]; rewrite mapM_completion_cons.
  - destruct e; try discriminate. reflexivity.
  - destruct (is_null e) eqn:En.
    + destruct e; try discriminate. reflexivity.
    + rewrite (rate_rated _ _ _ En), (IH Hlog). reflexivity.
Qed.

Lemma updateRecipeRating_eval (id : string) (rating : Z) (st : LocalStorage) :
  updateRecipeRating id rating st =
  if accessible st then
    match items st !! STORAGE_KEY with
    | Some text =>
        match JSON.parse text with
        | Some v =>
            match array_map (rate id rating) v with
            | Normal history =>
                match setItem STORAGE_KEY (JSON.stringify (JSON.Array history)) st with
                | (Normal _, st') => (Normal (JSON.Array history), st')
                | (Throw _, st') => (Normal (JSON.Array []), st')
                end
            | Throw _ => (Normal (JSON.Array []), st)
            end
        | None => (Normal (JSON.Array []), st)
        end
    | None => (Normal (JSON.Array []), st)
    end
  else (Normal (JSON.Array []), st).
Proof.
  run. destruct (accessible st); [|reflexivity].
  destruct (items st !! STORAGE_KEY) as [text|]; [|reflexivity].
  destruct text as [|c text]; [reflexivity|]. cbn [truthy]. unfold JSON_parse.
  destruct (JSON.parse (String c text)) as [v|]; [|reflexivity].
  destruct (array_map (rate id rating) v) as [history|]; [|reflexivity].
  destruct (setItem _ _ st) as [[[]|] ?]; reflexivity.
Qed.

(** *** Values stay well formed *)

Lemma wf_videos (videos : list Gemini.VideoSearchResult) :
  forallb JSON.wf (map video_value videos) = true.
Proof. induction videos as [|v vs IH]; [reflexivity | exact IH]. Qed.

Lemma wf_newItem uuid now query recipe videos :
  JSON.wf recipe = true -> JSON.wf (newItem uuid now query recipe videos) = true.
Proof. intros H. simpl. rewrite H, wf_videos. reflexivity. Qed.

Lemma wf_take (n : nat) (l : list JSON.value) :
  forallb JSON.wf l = true -> forallb JSON.wf (take n l) = true.
Proof.
  revert n. induction l as [|x l IH]; intros [|n] H; try reflexivity.
  simpl in *. apply andb_true_iff in H as [-> H]. now apply IH.
Qed.

Lemma wf_rated (id : string) (rating : Z) (item : JSON.value) :
  JSON.wf item = true -> JSON.wf (rated id rating item) = true.
Proof.
  intros H. destruct item; try exact H. unfold rated.
  destruct (id_is id _); [|exact H]. now apply JSONFacts.wf_object_set.
Qed.

Lemma wf_map_rated (id : string) (rating : Z) (log : list JSON.value) :
  forallb JSON.wf log = true -> forallb JSON.wf (map (rated id rating) log) = true.
Proof.
  induction log as [|e log IH]; [reflexivity|]. simpl. intros H.
  apply andb_true_iff in H as [He Hlog]. now rewrite wf_rated, IH.
Qed.

(** *** Sequences of appends *)

Lemma mapM_Eff_cons {A B : Type} (f : A -> Eff B) (x : A) (l : list A) (st : LocalStorage) :
  mapM f (x :: l) st =
  match f x st with
  | (Normal y, st1) =>
      match mapM f l st1 with
      | (Normal k, st2) => (Normal (y :: k), st2)
      | (Throw e, st2) => (Throw e, st2)
      end
  | (Throw e, st1) => (Throw e, st1)
  end.
Proof.
  change (mapM f (x :: l)) with (y ← f x; k ← mapM f l; mret (y :: k)).
  unfold mbind, mret, Eff_bind, Eff_ret.
  destruct (f x st) as [[y|e] st1]; [|reflexivity].
  destruct (mapM f l st1) as [[k|e] st2]; reflexivity.
Qed.

(** A successful append, in terms of the log it found. *)
Lemma append_success (c : Append) (st st' : LocalStorage) (old : list JSON.value) (r : JSON.value) :
  existing st = Normal (JSON.Array old) ->
  append c st = (Normal (Some r), st') ->
  r = session c /\ accessible st = true /\
  st' = written (JSON.stringify (JSON.Array (take 20 (session c :: old)))) st.
Proof.
  intros Hold. unfold append, session. rewrite saveRecipeToHistory_eval, Hold.
  destruct (accessible st); [|discriminate]. cbn zeta.
  destruct (setItem_cases (JSON.stringify (JSON.Array (take 20
              (newItem (a_uuid c) (a_now c) (a_query c) (a_recipe c) (a_videos c) :: old)))) st)
    as [-> | [e ->]]; [|discriminate].
  intros [= <- <-]. auto.
Qed.

Lemma take_app_take {A : Type} (n : nat) (l1 l2 : list A) :
  take n (l1 ++ take n l2)%list = take n (l1 ++ l2)%list.
Proof.
  rewrite !take_app, take_take. do 2 f_equal. lia.
Qed.

(** After a run of successful appends the store holds the sessions created,
    newest first, in front of what it held before, cut to twenty. *)
Lemma appends_run (cs : list Append) :
  forall (st st' : LocalStorage) (old : list JSON.value) (results : list (option JSON.value)),
    existing st = Normal (JSON.Array old) -> forallb JSON.wf old = true ->
    (length old <= 20)%nat ->
    Forall (fun c => JSON.wf (a_recipe c) = true) cs ->
    mapM append cs st = (Normal results, st') ->
    Forall is_Some results ->
    existing st' = Normal (JSON.Array (take 20 (reverse (map session cs) ++ old)%list)) /\
    results = map (fun c => Some (session c)) cs /\
    (cs <> [] -> accessible st' = true).
Proof.
  induction cs as [|c cs IH]; intros st st' old results Hold Hwf Hlen Hrec Hrun Hok.
  - injection Hrun as <- <-. simpl. rewrite take_ge by lia. auto.
  - rewrite mapM_Eff_cons in Hrun.
    destruct (append c st) as [[r|e] st1] eqn:Hc; [|discriminate].
    destruct (mapM append cs st1) as [[k|e] st2] eqn:Hcs; [|discriminate].
    injection Hrun as <- <-. apply Forall_cons in Hok as [[r' ->] Hk].
    apply Forall_cons in Hrec as [Hc_wf Hcs_wf].
    destruct (append_success c st st1 old r' Hold Hc) as (-> & Hacc & ->).
    assert (Hwf1 : forallb JSON.wf (take 20 (session c :: old)) = true).
    { apply wf_take. change (JSON.wf (session c) && forallb JSON.wf old = true).
      rewrite Hwf, andb_true_r. exact (wf_newItem _ _ _ _ _ Hc_wf). }
    assert (Hex1 : existing (written (JSON.stringify (JSON.Array (take 20 (session c :: old)))) st)
                   = Normal (JSON.Array (take 20 (session c :: old))))
      by (apply existing_written; exact Hwf1).
    assert (Hlen1 : (length (take 20 (session c :: old)) <= 20)%nat)
      by (rewrite length_take; lia).
    destruct (IH _ st2 _ k Hex1 Hwf1 Hlen1 Hcs_wf Hcs Hk) as (Hex & -> & Hacc').
    repeat split.
    + rewrite Hex. do 2 f_equal. rewrite take_app_take. simpl map.
      rewrite reverse_cons, <- app_assoc. reflexivity.
    + intros _. destruct cs as [|c' cs]; [|now apply Hacc'].
      change (mapM append []) with (mret (M := Eff) (@nil (option JSON.value))) in Hcs.
      unfold mret, Eff_ret in Hcs. injection Hcs as <-. exact Hacc.
Qed.

Lemma existing_absent (st : LocalStorage) :
  items st !! STORAGE_KEY = None -> existing st = Normal (JSON.Array []).
Proof. intros H. unfold existing. now rewrite H. Qed.



(** *** Rating updates *)

Lemma get_set_same (k : string) (v : JSON.value) (m : list (string * JSON.value)) :
  JSON.get k (JSON.set k v m) = Some v.
Proof.
  induction m as [|[k' v'] m IH]; simpl.
  - now rewrite String.eqb_refl.
  - destruct (String.eqb k' k) eqn:E; simpl; rewrite E; [reflexivity | exact IH].
Qed.

Lemma get_set_other (k k0 : string) (v : JSON.value) (m : list (string * JSON.value)) :
  k0 <> k -> JSON.get k0 (JSON.set k v m) = JSON.get k0 m.
Proof.
  intros Hne. induction m as [|[k' v'] m IH]; simpl.
  - destruct (String.eqb_spec k k0); [congruence | reflexivity].
  - destruct (String.eqb_spec k' k) as [->|Hk]; simpl.
    + destruct (String.eqb_spec k k0); [congruence | reflexivity].
    + now rewrite IH.
Qed.

Lemma keys_set (k : string) (v : JSON.value) (m : list (string * JSON.value)) :
  JSON.keys (JSON.set k v m) =
  if existsb (String.eqb k) (JSON.keys m) then JSON.keys m else (JSON.keys m ++ [k])%list.
Proof.
  induction m as [|[k' v'] m IH]; simpl; [reflexivity|].
  rewrite (String.eqb_sym k k').
  destruct (String.eqb k' k); simpl; [reflexivity|].
  rewrite IH. now destruct (existsb _ _).
Qed.

Lemma rated_other (id : string) (rating : Z) (e : JSON.value) :
  id_is id e = false -> rated id rating e = e.
Proof. intros H. destruct e; try reflexivity. unfold rated. now rewrite H. Qed.

Lemma rated_match (id : string) (rating : Z) (m : list (string * JSON.value)) :
  id_is id (JSON.Object m) = true ->
  rated id rating (JSON.Object m) = JSON.Object (JSON.set "userRating" (JSON.Number rating) m).
Proof. intros H. unfold rated. now rewrite H. Qed.

(** A map that moves one position only is an update of that position. *)
Lemma map_single {A : Type} (f : A -> A) (l : list A) :
  forall (i : nat) (x : A),
    l !! i = Some x ->
    (forall j y, j <> i -> l !! j = Some y -> f y = y) ->
    map f l = <[i := f x]> l.
Proof.
  induction l as [|a l IH]; intros i x Hi Hrest; [discriminate|].
  destruct i as [|i]; simpl in *.
  - injection Hi as ->. f_equal.
    transitivity (map id l); [|apply map_id].
    apply map_ext_in. intros y Hy. apply list_elem_of_In, list_elem_of_lookup in Hy as [j Hj].
    apply (Hrest (S j)); [lia | exact Hj].
  - rewrite (Hrest 0%nat a); [| lia | reflexivity]. f_equal.
    apply IH; [exact Hi|]. intros j y Hj Hy. apply (Hrest (S j)); [lia | exact Hy].
Qed.

Lemma map_fixed {A : Type} (f : A -> A) (l : list A) :
  (forall j y, l !! j = Some y -> f y = y) -> map f l = l.
Proof.
  intros H. transitivity (map id l); [|apply map_id].
  apply map_ext_in. intros y Hy. apply list_elem_of_In, list_elem_of_lookup in Hy as [j Hj].
  eauto.
Qed.

(** A rating update that reaches its write, in terms of the log it found. *)
Lemma updateRecipeRating_done (id : string) (rating : Z) (st : LocalStorage)
    (text : string) (log : list JSON.value) :
  accessible st = true ->
  items st !! STORAGE_KEY = Some text -> JSON.parse text = Some (JSON.Array log) ->
  entries_ok log = true ->
  let log' := map (rated id rating) log in
  let st' := written (JSON.stringify (JSON.Array log')) st in
  admits st STORAGE_KEY (JSON.stringify (JSON.Array log')) = true ->
  updateRecipeRating id rating st = (Normal (JSON.Array log'), st') /\
  JSON.parse (JSON.stringify (JSON.Array log')) = Some (JSON.Array log') /\
  getSavedRecipes st' = (Normal (JSON.Array log'), st').
Proof.
  intros Hacc Hitem Hparse Hok log' st' Hquota.
  assert (Hwf : JSON.wf (JSON.Array log') = true).
  { apply wf_map_rated. exact (JSONFacts.parse_wf _ _ Hparse). }
  repeat split.
  - rewrite updateRecipeRating_eval, Hacc, Hitem, Hparse. simpl array_map.
    rewrite mapM_rate by assumption. fold log'. now rewrite setItem_ok.
  - now apply JSONFacts.parse_stringify.
  - rewrite getSavedRecipes_eval. subst st'. rewrite existing_written by assumption.
    simpl. now rewrite Hacc.
Qed.






(** *** Appends on a missing or broken log *)






(** *** Ratings of an unknown identifier, and ratings that fail *)





(** *** Reading and clearing *)



(** C8. On a storage the page can reach, [clearHistory] returns normally
    and leaves nothing under the key, so that [getSavedRecipes] gives the
    empty list; a second call returns normally too and changes nothing, and so
    does a call when nothing was under the key in the first place. *)
Theorem clear_is_idempotent (st : LocalStorage) :
  accessible st = true ->
  exists st', clearHistory st = (Normal tt, st') /\
    items st' !! STORAGE_KEY = None /\
    getSavedRecipes st' = (Normal (JSON.Array []), st') /\
    clearHistory st' = (Normal tt, st') /\
    (items st !! STORAGE_KEY = None -> st' = st).
Proof.
  destruct st as [m a q]. simpl. intros ->.
  exists {| items := delete STORAGE_KEY m; accessible := true; room := q |}.
  assert (Hgone : delete STORAGE_KEY m !! STORAGE_KEY = None) by apply lookup_delete_eq.
  repeat split.
  - exact Hgone.
  - rewrite getSavedRecipes_eval. unfold existing. cbn [items accessible]. now rewrite Hgone.
  - unfold clearHistory, removeItem. cbn [items accessible room]. now rewrite delete_id.
  - intros Habsent. now rewrite delete_id.
Qed.

(** On a storage the page cannot reach, the error of [removeItem] leaves
    [clearHistory] uncaught. *)
Example clearHistory_blocked :
  clearHistory Examples.blocked_store = (Throw SecurityError, Examples.blocked_store).
Proof. reflexivity. Qed.

(** Append, rate with five stars, read: the first entry carries the rating. *)
Example append_rate_list :
  let st1 := snd (append (Examples.call "s1") Examples.empty_store) in
  let st2 := snd (updateRecipeRating "s1" 5 st1) in
  exists m rest, fst (getSavedRecipes st2) = Normal (JSON.Array (JSON.Object m :: rest)) /\
                 JSON.get "userRating" m = Some (JSON.Number 5).
Proof. vm_compute. eexists _, _. split; reflexivity. Qed.

(** Clearing the store that holds an object. *)
Lemma clear_is_idempotent_witness :
  exists st', clearHistory Examples.object_store = (Normal tt, st') /\
    items st' !! STORAGE_KEY = None /\
    getSavedRecipes st' = (Normal (JSON.Array []), st') /\
    clearHistory st' = (Normal tt, st') /\
    (items Examples.object_store !! STORAGE_KEY = None -> st' = Examples.object_store).
Proof. apply (clear_is_idempotent Examples.object_store). reflexivity. Defined.

End HistoryFacts.

(** ** The video lookup *)

Module GeminiFacts.
Import Js Gemini.

Section Map.
Context {V : Type}.
Implicit Types (m : list (string * V)) (k : string) (v : V).

Lemma Map_set_keys k v m :
  map fst (Map_set k v m) = if existsb (String.eqb k) (map fst m) then map fst m
                            else (map fst m ++ [k])%list.
Proof.
  induction m as [|[k' v'] m IH]; simpl; [reflexivity|].
  rewrite (String.eqb_sym k k').
  destruct (String.eqb k' k); simpl; [reflexivity|].
  rewrite IH. now destruct (existsb _ _).
Qed.

Lemma existsb_eqb_elem k (ks : list string) :
  existsb (String.eqb k) ks = false -> k ∉ ks.
Proof.
  intros H Hin. apply list_elem_of_In in Hin.
  assert (existsb (String.eqb k) ks = true); [|congruence].
  apply existsb_exists. exists k. split; [exact Hin | apply String.eqb_refl].
Qed.

(** [set] never makes a key appear twice. *)
Lemma Map_set_NoDup k v m : NoDup (map fst m) -> NoDup (map fst (Map_set k v m)).
Proof.
  intros H. rewrite Map_set_keys.
  destruct (existsb (String.eqb k) (map fst m)) eqn:E; [exact H|].
  apply NoDup_app. repeat split; [exact H | | apply NoDup_singleton].
  intros x Hx Hk. apply list_elem_of_singleton in Hk as ->.
  now apply (existsb_eqb_elem _ _ E).
Qed.

Lemma Map_set_Forall (P : string * V -> Prop) k v m :
  P (k, v) -> (forall k' v', k' = k -> P (k', v)) -> Forall P m -> Forall P (Map_set k v m).
Proof.
  intros Hkv Hsame. induction 1 as [|[k' v'] m Hx Hm IH]; simpl.
  - now constructor.
  - destruct (String.eqb_spec k' k) as [->|Hne]; constructor; auto.
Qed.

Lemma Map_fold_invariant (P : string * V -> Prop) (entries m : list (string * V)) :
  Forall P entries -> Forall P m -> NoDup (map fst m) ->
  let m' := fold_left (fun m kv => Map_set (fst kv) (snd kv) m) entries m in
  Forall P m' /\ NoDup (map fst m').
Proof.
  revert m. induction entries as [|[k v] entries IH]; intros m He Hm Hnd; simpl; [auto|].
  apply Forall_cons in He as [Hkv He].
  apply IH; [exact He | | now apply Map_set_NoDup].
  apply Map_set_Forall; [exact Hkv | now intros k' v' -> | exact Hm].
Qed.

End Map.

(** Entries keyed by their own address give values of distinct addresses. *)
Lemma Map_new_by_uri (results : list VideoSearchResult) :
  NoDup (map uri (Map_values (Map_new (map (fun item => (uri item, item)) results)))).
Proof.
  destruct (Map_fold_invariant (fun kv => uri (snd kv) = fst kv)
              (map (fun item => (uri item, item)) results) []) as [Hinv Hnd].
  - apply Forall_forall. intros kv Hkv. apply list_elem_of_In, in_map_iff in Hkv as (item & <- & _).
    reflexivity.
  - constructor.
  - constructor.
  - unfold Map_new, Map_values.
    set (m := fold_left _ _ _) in *.
    replace (map uri (map snd m)) with (map fst m); [exact Hnd|].
    rewrite map_map. apply map_ext_in. intros kv Hkv.
    rewrite Forall_forall in Hinv. symmetry. apply Hinv. now apply list_elem_of_In.
Qed.


(** Two candidates with one address and two titles come back as one result,
    under the title seen last. *)
Example videos_same_address :
  findRecipeVideos Examples.same_address "pasta"
  = Normal [ {| title := "Second title"; uri := "https://youtu.be/abc"; source := "Web" |} ].
Proof. vm_compute. reflexivity. Qed.

End GeminiFacts.
